(** * The category of modules over a base ring

    A verification development for [sage/categories/modules.py]: the class
    [Modules] with its declared super-category, the element-level
    multiplication that defers to the coercion model, and the nested
    [HomCategory] / [EndCategory] classes with their extra super-categories
    and the cached [zero] of a space of morphisms.

    Python classes are rendered as inductive types and records, methods as
    functions of [self]; the coercion model and the objects that live on the
    Python heap are rendered by explicit programs and explicit stores. *)

From stdpp Require Import base decidable countable list gmap.

(** * Category nodes *)

(** A base ring is an opaque handle: the development only ever compares two
    of them, so it is a type parameter [Ring] with decidable equality. *)

(** Instances of the classes built over a single base ring
    ([Category_module] in [category_types]): the constructor argument is the
    ring given to [__init__], which [base_ring()] hands back. *)
Inductive Category_module (Ring : Type) : Type :=
| Modules (base : Ring)
| Algebras (base : Ring).
Arguments Modules {Ring} base.
Arguments Algebras {Ring} base.

(** [Category_module.base_ring] *)
Definition base_ring {Ring : Type} (self : Category_module Ring) : Ring :=
  match self with
  | Modules base => base
  | Algebras base => base
  end.

(** Instances of a class derived from [HomCategory]: [__init__(category)]
    stores its argument in the attribute [base_category].  The nested classes
    of [Modules] are only ever instantiated on a category over a base ring. *)
Record HomCategory (Ring : Type) : Type := mkHomCategory {
  base_category : Category_module Ring
}.
Arguments mkHomCategory {Ring} base_category.
Arguments base_category {Ring} h.

(** The nodes of the hierarchy met in this file: the classes named in
    [modules.py] and the ones listed by its doctest of
    [all_super_categories]. *)
Inductive Category (Ring : Type) : Type :=
| Objects
| Sets
| CommutativeAdditiveSemigroups
| CommutativeAdditiveMonoids
| CommutativeAdditiveGroups
| LeftModules (R : Ring)
| RightModules (R : Ring)
| Bimodules (left_base right_base : Ring)
| OverRing (c : Category_module Ring)
| Modules_HomCategory (self : HomCategory Ring)
| Modules_EndCategory (self : HomCategory Ring).
Arguments Objects {Ring}.
Arguments Sets {Ring}.
Arguments CommutativeAdditiveSemigroups {Ring}.
Arguments CommutativeAdditiveMonoids {Ring}.
Arguments CommutativeAdditiveGroups {Ring}.
Arguments LeftModules {Ring} R.
Arguments RightModules {Ring} R.
Arguments Bimodules {Ring} left_base right_base.
Arguments OverRing {Ring} c.
Arguments Modules_HomCategory {Ring} self.
Arguments Modules_EndCategory {Ring} self.

Coercion OverRing : Category_module >-> Category.

(** * Errors *)

(** The three failures of the error taxonomy. *)
Inductive Exn : Type :=
| InvalidParameterKind
| CyclicHierarchy
| NoCommonStructure.

Inductive result (A : Type) : Type :=
| Ok (a : A)
| Raise (e : Exn).
Arguments Ok {A} a.
Arguments Raise {A} e.

(** * The coercion model, seen from its callers *)

(** The functions of Python's [operator] module that a caller may hand to
    the coercion model. *)
Inductive Operator : Type :=
| operator_add
| operator_sub
| operator_mul.

Module CoercionModel.
Section Programs.
(** Python objects that may stand as operands or results.  Nothing is known
    about them: code written over [Obj] cannot look into an operand. *)
Context {Obj : Type}.

(** One call [bin_op(x, y, op)] of the coercion model. *)
Definition Call : Type := Obj * Obj * Operator.

(** A computation that may call the coercion model: it returns, or it calls
    [bin_op] and goes on with the object that the call returns. *)
Inductive Py (A : Type) : Type :=
| Return (a : A)
| BinOp (x y : Obj) (op : Operator) (k : Obj → Py A).

(** The coercion model is a process-wide singleton. *)
Inductive t : Type := singleton.

(** [sage.structure.element.get_coercion_model()] *)
Definition get_coercion_model (_ : unit) : t := singleton.

(** The method [bin_op] of the coercion model, as a call left to it. *)
Definition bin_op (cm : t) (x y : Obj) (op : Operator) : Py Obj :=
  BinOp Obj x y op (Return Obj).

(** The coercion model itself is external: given two operands and an
    operation it answers with an object or fails (with [NoCommonStructure]
    when it finds no common structure), and it may update a state [S] of its
    own along the way. *)
Context {S : Type}.
Variable resolver : Obj → Obj → Operator → S → result Obj * S.

(** Running a computation against the coercion model.  The third component
    is the log of the calls that were made, in order.  A failing call ends
    the computation: no caller in [modules.py] catches anything. *)
Fixpoint run {A : Type} (p : Py A) (s : S) : result A * S * list Call :=
  match p with
  | Return _ a => (Ok a, s, [])
  | BinOp _ x y op k =>
      match resolver x y op s with
      | (Ok v, s') =>
          let '(r, s'', calls) := run (k v) s' in
          (r, s'', (x, y, op) :: calls)
      | (Raise e, s') => (Raise e, s', [(x, y, op)])
      end
  end.
End Programs.
Arguments Py Obj A : clear implicits.
Arguments Call Obj : clear implicits.
End CoercionModel.

(** * Cached methods *)

Module CachedMethod.
Section Decorator.
(** [K]: the instances the method is called on; [V]: what it returns; [St]:
    the part of the world that the method body may change. *)
Context {K V St : Type} `{Countable K}.

(** The world of a cached method: the memo, the world of the body, and the
    log of the instances on which the body was run (a ghost counter, newest
    first). *)
Record world : Type := mkWorld {
  cache : gmap K V;
  invocations : list K;
  store : St
}.

Definition init (st : St) : world :=
  {| cache := ∅; invocations := []; store := st |}.

(** Modelled from the spec: the decorator [cached_method] comes from
    [sage.misc.cachefunc], not from [modules.py].  As the contract
    [get_or_compute] of the closure cache has it: a memoized result is
    returned if one is present under the instance; otherwise the body is
    run, its result stored and returned; a failure of the body is handed on
    and nothing is stored. *)
Definition call (f : K → St → result V * St) (self : K) (w : world)
  : result V * world :=
  match cache w !! self with
  | Some v => (Ok v, w)
  | None =>
      match f self (store w) with
      | (Ok v, st) =>
          (Ok v, {| cache := <[self := v]> (cache w);
                    invocations := self :: invocations w;
                    store := st |})
      | (Raise e, st) =>
          (Raise e, {| cache := cache w;
                       invocations := self :: invocations w;
                       store := st |})
      end
  end.

(** A sequence of calls, one after the other. *)
Fixpoint call_all (f : K → St → result V * St) (selves : list K) (w : world)
  : list (result V) * world :=
  match selves with
  | [] => ([], w)
  | self :: selves =>
      let (r, w1) := call f self w in
      let (rs, w2) := call_all f selves w1 in
      (r :: rs, w2)
  end.

(** A method body that cannot fail. *)
Definition total (body : K → St → V * St) (self : K) (st : St)
  : result V * St :=
  let (v, st') := body self st in (Ok v, st').

(** The body has run at most once on each instance, and each instance it
    has run on is in the memo. *)
Definition logged (w : world) : Prop :=
  NoDup (invocations w) ∧ ∀ k, k ∈ invocations w → is_Some (cache w !! k).

(** What the memo holds is what the body answered: [P st k v] relates an
    instance and a value in a world [st] of the body. *)
Definition sound (P : St → K → V → Prop) (w : world) : Prop :=
  ∀ k v, cache w !! k = Some v → P (store w) k v.
End Decorator.
Arguments world K V St {_ _}.
End CachedMethod.

(** * Spaces of morphisms *)

Module Homsets.
Section Objects.
(** [Parent]: the modules between which morphisms go; [Element]: their
    elements.  Both are external. *)
Context {Parent Element : Type}.

(** A space of morphisms [Hom(X, Y)]. *)
Record Homset : Type := Hom {
  domain : Parent;
  codomain : Parent
}.

(** A generic morphism: the space it belongs to and the function it wraps. *)
Record Morphism : Type := mkMorphism {
  parent : Homset;
  function : Element → Element
}.

(** Morphisms are objects on the Python heap; a reference is an index. *)
Definition Ref : Type := nat.
Definition Heap : Type := list Morphism.

Definition alloc (m : Morphism) (h : Heap) : Ref * Heap :=
  (length h, h ++ [m]).

(** Modelled from the spec: calling a space of morphisms on a function,
    [self(f)], and applying a morphism, [f(x)], are methods of classes that
    are not in [modules.py].  As the doctest of [zero] shows, [self(f)]
    builds a fresh generic morphism of the space that wraps [f], and applying
    it applies [f]. *)
Definition Homset_call (self : Homset) (f : Element → Element) (h : Heap)
  : Ref * Heap :=
  alloc {| parent := self; function := f |} h.

Definition Morphism_call (m : Morphism) (x : Element) : Element :=
  function m x.
End Objects.
Arguments Homset Parent : clear implicits.
Arguments Morphism Parent Element : clear implicits.
Arguments Heap Parent Element : clear implicits.

Section Identity.
Context {Parent : Type} `{Countable Parent}.

#[export] Instance Homset_eq_dec : EqDecision (Homset Parent).
Proof. solve_decision. Defined.

#[export] Instance Homset_countable : Countable (Homset Parent).
Proof.
  refine (inj_countable' (λ X, (domain X, codomain X))
            (λ p, {| domain := p.1; codomain := p.2 |}) _).
  by intros [].
Defined.
End Identity.
End Homsets.

(** * The class [Modules] *)

Module Modules.
Section Methods.
Context {Ring : Type}.

(** [Modules.super_categories]:
<<
      R = self.base_ring()
      return [Bimodules(R,R)]
>>
    Its decorator [@cached_method] is [CachedMethod.call]. *)
Definition super_categories (self : Category_module Ring)
  : list (Category Ring) :=
  let R := base_ring self in
  [Bimodules R R].
End Methods.

(** [Modules.ElementMethods] *)
Module ElementMethods.
Import CoercionModel.
Section Methods.
Context {Obj : Type}.

(** [return get_coercion_model().bin_op(left, right, operator.mul)] *)
Definition __mul__ (left right : Obj) : Py Obj Obj :=
  bin_op (get_coercion_model ()) left right operator_mul.

(** [def __rmul__(right, left)]: the receiver is named [right] and the other
    operand [left]; the body is the one of [__mul__]. *)
Definition __rmul__ (right left : Obj) : Py Obj Obj :=
  bin_op (get_coercion_model ()) left right operator_mul.
End Methods.
End ElementMethods.

(** [Modules.HomCategory] *)
Module HomCategory.
Section Methods.
Context {Ring : Type}.

(** [return [Modules(self.base_category.base_ring())]] *)
Definition extra_super_categories (self : HomCategory Ring)
  : list (Category Ring) :=
  [OverRing (Modules (base_ring (base_category self)))].
End Methods.

(** [Modules.HomCategory.ParentMethods] *)
Module ParentMethods.
Import Homsets.
Section Methods.
Context {Parent Element : Type} `{Countable Parent}.

(** [X.zero()] for a module [X]: external. *)
Variable Parent_zero : Parent → Element.

(** The body of [zero]:
    [return self(lambda x: self.codomain().zero())] *)
Definition zero_body (self : Homset Parent) (h : Heap Parent Element)
  : Ref * Heap Parent Element :=
  Homset_call self (λ x, Parent_zero (codomain self)) h.

(** [zero], under its decorator [@cached_method]. *)
Definition zero (self : Homset Parent)
    (w : CachedMethod.world (Homset Parent) Ref (Heap Parent Element))
  : result Ref * CachedMethod.world (Homset Parent) Ref (Heap Parent Element) :=
  CachedMethod.call (CachedMethod.total zero_body) self w.

(** In heap [h], reference [r] holds a morphism of the space [X] that sends
    every element to the zero of the codomain of [X]. *)
Definition is_zero_of (h : Heap Parent Element) (X : Homset Parent) (r : Ref)
  : Prop :=
  ∃ m, h !! r = Some m ∧ parent m = X
       ∧ ∀ x, Morphism_call m x = Parent_zero (codomain X).
End Methods.
End ParentMethods.
End HomCategory.

(** [Modules.EndCategory] *)
Module EndCategory.
Section Methods.
Context {Ring : Type}.

(** [return [Algebras(self.base_category.base_ring())]] *)
Definition extra_super_categories (self : HomCategory Ring)
  : list (Category Ring) :=
  [OverRing (Algebras (base_ring (base_category self)))].
End Methods.
End EndCategory.
End Modules.

(** * Node identity *)

Section Identity.
Context {Ring : Type} `{EqDecision Ring}.

#[export] Instance Category_module_eq_dec : EqDecision (Category_module Ring).
Proof. solve_decision. Defined.

#[export] Instance HomCategory_eq_dec : EqDecision (HomCategory Ring).
Proof. solve_decision. Defined.

#[export] Instance Category_eq_dec : EqDecision (Category Ring).
Proof. solve_decision. Defined.

(** The identity of a node: its kind tag and the tuple of its base-ring
    handles. *)
Definition identity (c : Category Ring) : nat * list Ring :=
  match c with
  | Objects => (0, [])
  | Sets => (1, [])
  | CommutativeAdditiveSemigroups => (2, [])
  | CommutativeAdditiveMonoids => (3, [])
  | CommutativeAdditiveGroups => (4, [])
  | LeftModules R => (5, [R])
  | RightModules R => (6, [R])
  | Bimodules R R' => (7, [R; R'])
  | OverRing (Modules R) => (8, [R])
  | OverRing (Algebras R) => (9, [R])
  | Modules_HomCategory (mkHomCategory (Modules R)) => (10, [R])
  | Modules_HomCategory (mkHomCategory (Algebras R)) => (11, [R])
  | Modules_EndCategory (mkHomCategory (Modules R)) => (12, [R])
  | Modules_EndCategory (mkHomCategory (Algebras R)) => (13, [R])
  end.

(** [construct(kind, parameters)]: the node with a given identity, if the
    parameter tuple suits the kind. *)
Definition construct (id : nat * list Ring) : result (Category Ring) :=
  match id with
  | (0, []) => Ok Objects
  | (1, []) => Ok Sets
  | (2, []) => Ok CommutativeAdditiveSemigroups
  | (3, []) => Ok CommutativeAdditiveMonoids
  | (4, []) => Ok CommutativeAdditiveGroups
  | (5, [R]) => Ok (LeftModules R)
  | (6, [R]) => Ok (RightModules R)
  | (7, [R; R']) => Ok (Bimodules R R')
  | (8, [R]) => Ok (OverRing (Modules R))
  | (9, [R]) => Ok (OverRing (Algebras R))
  | (10, [R]) => Ok (Modules_HomCategory (mkHomCategory (Modules R)))
  | (11, [R]) => Ok (Modules_HomCategory (mkHomCategory (Algebras R)))
  | (12, [R]) => Ok (Modules_EndCategory (mkHomCategory (Modules R)))
  | (13, [R]) => Ok (Modules_EndCategory (mkHomCategory (Algebras R)))
  | _ => Raise InvalidParameterKind
  end.

Lemma construct_identity (c : Category Ring) : construct (identity c) = Ok c.
Proof. by destruct c as [| | | | | | | |[]|[[]]|[[]]]. Qed.

#[export] Instance Category_countable `{Countable Ring} : Countable (Category Ring).
Proof.
  refine (inj_countable identity
            (λ id, match construct id with Ok c => Some c | Raise _ => None end) _).
  intros c. by rewrite construct_identity.
Defined.
End Identity.

(** * The hierarchy resolver *)

Module Hierarchy.
Section Resolver.
Context {Ring : Type} `{EqDecision Ring}.

(** Modelled from the spec: [Category.hom_category] and its endomorphism
    counterpart are methods of the base class [Category], which is not in
    [modules.py]; the doctest [Modules(ZZ).hom_category()] shows the node
    they build: the nested class instantiated on the category itself. *)
Definition hom_category (c : Category_module Ring) : Category Ring :=
  Modules_HomCategory (mkHomCategory c).

Definition end_category (c : Category_module Ring) : Category Ring :=
  Modules_EndCategory (mkHomCategory c).

(** The [super_categories] methods of the classes that [modules.py] does not
    define ([Algebras] and the base class [HomCategory]) are a parameter. *)
Variable inherited_super_categories : Category Ring → list (Category Ring).

(** Modelled from the spec: the declared super-category function, by kind.
    The case of [Modules] is the method of [modules.py]; the classes
    [Bimodules], [LeftModules], [RightModules], ... live in other files, and
    their edges are the ones behind the doctest of [all_super_categories] in
    the docstring of [Modules]: left and right modules under bimodules, then
    the chain of commutative additive groups, monoids, semigroups, sets and
    objects. *)
Definition declared_super_categories (node : Category Ring)
  : list (Category Ring) :=
  match node with
  | OverRing (Modules _ as self) => Modules.super_categories self
  | Bimodules R R' => [LeftModules R; RightModules R']
  | LeftModules _ => [CommutativeAdditiveGroups]
  | RightModules _ => [CommutativeAdditiveGroups]
  | CommutativeAdditiveGroups => [CommutativeAdditiveMonoids]
  | CommutativeAdditiveMonoids => [CommutativeAdditiveSemigroups]
  | CommutativeAdditiveSemigroups => [Sets]
  | Sets => [Objects]
  | Objects => []
  | _ => inherited_super_categories node
  end.

(** The extra-super-category hook, by kind: present on the two nested
    classes of [Modules], absent (no contribution) elsewhere. *)
Definition extra_super_categories (node : Category Ring)
  : list (Category Ring) :=
  match node with
  | Modules_HomCategory self => Modules.HomCategory.extra_super_categories self
  | Modules_EndCategory self => Modules.EndCategory.extra_super_categories self
  | _ => []
  end.

(** Modelled from the spec: [direct_super_categories] is the resolver of the
    base class, not in [modules.py].  It applies the declared function of the
    node's kind and appends the contribution of the hook. *)
Definition direct_super_categories (node : Category Ring)
  : list (Category Ring) :=
  declared_super_categories node ++ extra_super_categories node.

(** Deduplication by identity, the first occurrence wins. *)
Fixpoint dedup_first (seen l : list (Category Ring)) : list (Category Ring) :=
  match l with
  | [] => []
  | c :: l =>
      if decide (c ∈ seen) then dedup_first seen l
      else c :: dedup_first (c :: seen) l
  end.

(** The closures of a sequence of nodes, one after the other; the first
    failure stops the walk. *)
Fixpoint closures_of
    (closure : Category Ring → option (result (list (Category Ring))))
    (nodes : list (Category Ring)) : option (result (list (Category Ring))) :=
  match nodes with
  | [] => Some (Ok [])
  | c :: nodes =>
      match closure c with
      | None => None
      | Some (Raise e) => Some (Raise e)
      | Some (Ok cs) =>
          match closures_of closure nodes with
          | None => None
          | Some (Raise e) => Some (Raise e)
          | Some (Ok ds) => Some (Ok (cs ++ ds))
          end
      end
  end.

(** Modelled from the spec: [transitive_closure] ([all_super_categories] in
    the doctest) belongs to the base class [Category], not to [modules.py].
    The closure of a node is the node itself, then its direct
    super-categories in declared order, then recursively their closures,
    deduplicated on first occurrence.  A node met again while it is on the
    active recursion path [path] is a [CyclicHierarchy] failure.  [None]
    means that [fuel] levels of recursion did not suffice. *)
Fixpoint transitive_closure_on (fuel : nat) (path : list (Category Ring))
    (node : Category Ring) : option (result (list (Category Ring))) :=
  match fuel with
  | 0 => None
  | S fuel =>
      if decide (node ∈ path) then Some (Raise CyclicHierarchy)
      else
        let supers := direct_super_categories node in
        match closures_of (transitive_closure_on fuel (node :: path)) supers with
        | None => None
        | Some (Raise e) => Some (Raise e)
        | Some (Ok cs) => Some (Ok (dedup_first [] (node :: supers ++ cs)))
        end
  end.

Definition transitive_closure (fuel : nat) (node : Category Ring)
  : option (result (list (Category Ring))) :=
  transitive_closure_on fuel [] node.


(** Modelled from the spec: the walk as the resolver's own paragraph words
    it, kept for comparison: depth-first over the direct super-categories,
    each node emitted the first time it is reached and skipped when met
    again, a node met while it is on the active recursion path being a
    [CyclicHierarchy] failure.  [emitted] is the sequence emitted so far. *)
Fixpoint preorder_walk (fuel : nat) (path emitted : list (Category Ring))
    (node : Category Ring) : option (result (list (Category Ring))) :=
  match fuel with
  | 0 => None
  | S fuel =>
      if decide (node ∈ path) then Some (Raise CyclicHierarchy)
      else if decide (node ∈ emitted) then Some (Ok emitted)
      else
        foldl (λ acc super,
                 match acc with
                 | Some (Ok emitted) =>
                     preorder_walk fuel (node :: path) emitted super
                 | _ => acc
                 end)
              (Some (Ok (emitted ++ [node])))
              (direct_super_categories node)
  end.

(** How far a node of the chain under [Modules(R)] is from the root. *)
Definition rank (node : Category Ring) : nat :=
  match node with
  | Objects => 0
  | Sets => 1
  | CommutativeAdditiveSemigroups => 2
  | CommutativeAdditiveMonoids => 3
  | CommutativeAdditiveGroups => 4
  | LeftModules _ | RightModules _ => 5
  | Bimodules _ _ => 6
  | _ => 7
  end.

(** Every node of the active path lies strictly further from the root. *)
Definition below (node : Category Ring) (path : list (Category Ring)) : Prop :=
  Forall (λ c, rank node < rank c) path.

(** The closure announced by the doctest of [Modules.all_super_categories]. *)
Definition Modules_all_super_categories (R : Ring) : list (Category Ring) :=
  [ OverRing (Modules R); Bimodules R R; LeftModules R; RightModules R;
    CommutativeAdditiveGroups; CommutativeAdditiveMonoids;
    CommutativeAdditiveSemigroups; Sets; Objects ].
End Resolver.

Section Cached.
Context {Ring : Type} `{Countable Ring}.
Variable inherited_super_categories : Category Ring → list (Category Ring).


End Cached.
End Hierarchy.


(** * A small coercion model *)

(** A coercion model over the natural numbers that only knows how to
    multiply two numbers below ten, and counts the calls it gets. *)
Definition small_resolver (x y : nat) (op : Operator) (calls : nat)
  : result nat * nat :=
  match op with
  | operator_mul =>
      if decide (x < 10 ∧ y < 10) then (Ok (x * y), S calls)
      else (Raise NoCommonStructure, S calls)
  | _ => (Raise NoCommonStructure, S calls)
  end.

(** * Facts about the hierarchy *)

Section HierarchyFacts.
Context {Ring : Type} `{EqDecision Ring}.
Implicit Types (R : Ring) (node : Category Ring) (path : list (Category Ring)).
Import Hierarchy.

(** C1.  For every base ring [R], the declared direct super-categories of
    the node [Modules(R)] are the one-element sequence [[Bimodules(R, R)]],
    both parameters being the base ring of the node; the hook adds nothing
    to them. *)
Theorem Modules_super_categories_spec R inherited :
  Modules.super_categories (Modules R) = [Bimodules R R]
  ∧ declared_super_categories inherited (Modules R)
    = [Bimodules (base_ring (Modules R)) (base_ring (Modules R))]
  ∧ direct_super_categories inherited (Modules R) = [Bimodules R R].
Proof. by repeat split. Qed.

(** C2.  For every base ring [R], the hook of the Hom-category node derived
    from [Modules(R)] contributes exactly the node [Modules(R)], and so the
    direct super-categories of that node include [Modules(R)] whatever the
    declared super-category function says. *)
Theorem HomCategory_extra_super_categories_spec R inherited :
  Modules.HomCategory.extra_super_categories (mkHomCategory (Modules R))
  = [OverRing (Modules R)]
  ∧ extra_super_categories (hom_category (Modules R)) = [OverRing (Modules R)]
  ∧ OverRing (Modules R)
    ∈ direct_super_categories inherited (hom_category (Modules R)).
Proof.
  repeat split. unfold direct_super_categories.
  apply elem_of_app; right. simpl. left.
Qed.

(** C10.  For every base ring [R], the hook of the endomorphism variant of
    the Hom-category of [Modules(R)] contributes the single node
    [Algebras(R)]. *)
Theorem EndCategory_extra_super_categories_spec R :
  Modules.EndCategory.extra_super_categories (mkHomCategory (Modules R))
  = [OverRing (Algebras R)]
  ∧ extra_super_categories (end_category (Modules R)) = [OverRing (Algebras R)].
Proof. by split. Qed.
End HierarchyFacts.

(** ** The closure of [Modules(R)] *)

Section ClosureFacts.
Context {Ring : Type} `{EqDecision Ring}.
Variable inherited : Category Ring → list (Category Ring).
Implicit Types (R : Ring) (node : Category Ring) (path : list (Category Ring)).
Import Hierarchy.

Lemma below_not_elem_of node path : below node path → node ∉ path.
Proof.
  intros Hb Hin. eapply Forall_forall in Hb; [|exact Hin]. lia.
Qed.

Lemma below_cons node super path :
  rank super < rank node → below node path → below super (node :: path).
Proof.
  intros Hlt Hb. constructor; [done|].
  eapply Forall_impl; [exact Hb|]. simpl. lia.
Qed.

Lemma transitive_closure_on_unfold fuel path node :
  node ∉ path →
  transitive_closure_on inherited (S fuel) path node =
  match closures_of (transitive_closure_on inherited fuel (node :: path))
          (direct_super_categories inherited node) with
  | None => None
  | Some (Raise e) => Some (Raise e)
  | Some (Ok cs) =>
      Some (Ok (dedup_first []
                  (node :: direct_super_categories inherited node ++ cs)))
  end.
Proof. intros Hnot. simpl. by rewrite decide_False. Qed.

Lemma transitive_closure_on_cycle fuel path node :
  node ∈ path →
  transitive_closure_on inherited (S fuel) path node
  = Some (Raise CyclicHierarchy).
Proof. intros Hin. simpl. by rewrite decide_True. Qed.

Lemma dedup_first_seen (seen l : list (Category Ring)) (c : Category Ring) :
  c ∈ seen → dedup_first seen (c :: l) = dedup_first seen l.
Proof. intros Hin. simpl. by rewrite decide_True. Qed.

Lemma dedup_first_new (seen l : list (Category Ring)) (c : Category Ring) :
  c ∉ seen → dedup_first seen (c :: l) = c :: dedup_first (c :: seen) l.
Proof. intros Hnot. simpl. by rewrite decide_False. Qed.

Ltac mem_solve :=
  rewrite ?elem_of_cons, ?elem_of_nil; intuition (discriminate || congruence).

Ltac dedup_eval :=
  repeat first [ rewrite dedup_first_seen by mem_solve
               | rewrite dedup_first_new by mem_solve ];
  cbn [dedup_first].

Ltac closure_unfold Hb :=
  intros Hb; cbn [Nat.add];
  rewrite transitive_closure_on_unfold by (by apply below_not_elem_of);
  cbn [direct_super_categories declared_super_categories
       extra_super_categories Modules.super_categories base_ring
       closures_of app].

Ltac closure_step sub fuel :=
  let Hb := fresh "Hb" in
  let Hsub := fresh "Hsub" in
  closure_unfold Hb;
  pose proof (sub fuel) as Hsub; cbn [Nat.add] in Hsub;
  rewrite !Hsub by (apply below_cons; [simpl; lia | exact Hb]);
  cbn [app]; dedup_eval; reflexivity.

Lemma closure_Objects fuel path :
  below Objects path →
  transitive_closure_on inherited (1 + fuel) path Objects
  = Some (Ok [Objects]).
Proof. closure_unfold Hb. by dedup_eval. Qed.

Lemma closure_Sets fuel path :
  below Sets path →
  transitive_closure_on inherited (2 + fuel) path Sets
  = Some (Ok [Sets; Objects]).
Proof. closure_step closure_Objects fuel. Qed.

Lemma closure_CommutativeAdditiveSemigroups fuel path :
  below CommutativeAdditiveSemigroups path →
  transitive_closure_on inherited (3 + fuel) path CommutativeAdditiveSemigroups
  = Some (Ok [CommutativeAdditiveSemigroups; Sets; Objects]).
Proof. closure_step closure_Sets fuel. Qed.

Lemma closure_CommutativeAdditiveMonoids fuel path :
  below CommutativeAdditiveMonoids path →
  transitive_closure_on inherited (4 + fuel) path CommutativeAdditiveMonoids
  = Some (Ok [CommutativeAdditiveMonoids; CommutativeAdditiveSemigroups;
              Sets; Objects]).
Proof. closure_step closure_CommutativeAdditiveSemigroups fuel. Qed.

Lemma closure_CommutativeAdditiveGroups fuel path :
  below CommutativeAdditiveGroups path →
  transitive_closure_on inherited (5 + fuel) path CommutativeAdditiveGroups
  = Some (Ok [CommutativeAdditiveGroups; CommutativeAdditiveMonoids;
              CommutativeAdditiveSemigroups; Sets; Objects]).
Proof. closure_step closure_CommutativeAdditiveMonoids fuel. Qed.

Lemma closure_LeftModules R fuel path :
  below (LeftModules R) path →
  transitive_closure_on inherited (6 + fuel) path (LeftModules R)
  = Some (Ok [LeftModules R; CommutativeAdditiveGroups;
              CommutativeAdditiveMonoids; CommutativeAdditiveSemigroups;
              Sets; Objects]).
Proof. closure_step closure_CommutativeAdditiveGroups fuel. Qed.

Lemma closure_RightModules R fuel path :
  below (RightModules R) path →
  transitive_closure_on inherited (6 + fuel) path (RightModules R)
  = Some (Ok [RightModules R; CommutativeAdditiveGroups;
              CommutativeAdditiveMonoids; CommutativeAdditiveSemigroups;
              Sets; Objects]).
Proof. closure_step closure_CommutativeAdditiveGroups fuel. Qed.

Lemma closure_Bimodules R fuel path :
  below (Bimodules R R) path →
  transitive_closure_on inherited (7 + fuel) path (Bimodules R R)
  = Some (Ok [Bimodules R R; LeftModules R; RightModules R;
              CommutativeAdditiveGroups; CommutativeAdditiveMonoids;
              CommutativeAdditiveSemigroups; Sets; Objects]).
Proof.
  closure_unfold Hb.
  pose proof (closure_LeftModules R fuel) as Hl.
  pose proof (closure_RightModules R fuel) as Hr.
  cbn [Nat.add] in Hl, Hr.
  rewrite Hl, Hr by (apply below_cons; [simpl; lia | exact Hb]).
  cbn [app]. dedup_eval. reflexivity.
Qed.

Lemma closure_Modules R fuel :
  transitive_closure inherited (9 + fuel) (Modules R)
  = Some (Ok (Modules_all_super_categories R)).
Proof.
  unfold transitive_closure.
  assert (below (OverRing (Modules R)) []) as Hb by constructor.
  revert Hb. closure_unfold Hb.
  pose proof (closure_Bimodules R (1 + fuel)) as Hsub.
  cbn [Nat.add] in Hsub.
  rewrite Hsub by (apply below_cons; [simpl; lia | exact Hb]).
  cbn [app]. dedup_eval. reflexivity.
Qed.

Lemma NoDup_Modules_all_super_categories R :
  NoDup (Modules_all_super_categories R).
Proof.
  unfold Modules_all_super_categories.
  repeat (apply NoDup_cons; split; [mem_solve|]). apply NoDup_nil_2.
Qed.

(** C6.  For every base ring [R], the transitive closure of [Modules(R)] is
    computed without failure as soon as nine levels of recursion are
    allowed, and it lists [Modules(R)] first, then [Bimodules(R,R)], then the
    left modules, the right modules and the commutative additive groups,
    monoids and semigroups, then sets, and ends at the root [Objects]; no
    node occurs twice and no cycle is met. *)
Theorem Modules_transitive_closure R fuel :
  9 ≤ fuel →
  transitive_closure inherited fuel (Modules R)
  = Some (Ok [ OverRing (Modules R); Bimodules R R; LeftModules R;
               RightModules R; CommutativeAdditiveGroups;
               CommutativeAdditiveMonoids; CommutativeAdditiveSemigroups;
               Sets; Objects ])
  ∧ NoDup (Modules_all_super_categories R)
  ∧ head (Modules_all_super_categories R) = Some (OverRing (Modules R))
  ∧ last (Modules_all_super_categories R) = Some Objects.
Proof.
  intros Hfuel. split; [|split; [apply NoDup_Modules_all_super_categories|done]].
  replace fuel with (9 + (fuel - 9)) by lia. apply closure_Modules.
Qed.
End ClosureFacts.

(** A run of C6 over the integers as base rings. *)
Lemma Modules_transitive_closure_witness :
  9 ≤ 9
  ∧ Hierarchy.transitive_closure (λ _ : Category nat, []) 9 (Modules 0)
    = Some (Ok [ OverRing (Modules 0); Bimodules 0 0; LeftModules 0;
                 RightModules 0; CommutativeAdditiveGroups;
                 CommutativeAdditiveMonoids; CommutativeAdditiveSemigroups;
                 Sets; Objects ]).
Proof.
  split; [lia|].
  apply (Modules_transitive_closure (λ _ : Category nat, []) 0 9). lia.
Defined.

(** The other wording of the walk, emitting in depth-first pre-order, visits
    the same nine nodes but leaves the right modules for last: the order of
    the doctest is the one of [transitive_closure]. *)
Remark preorder_walk_Modules :
  Hierarchy.preorder_walk (λ _ : Category nat, []) 9 [] [] (Modules 0)
  = Some (Ok [ OverRing (Modules 0); Bimodules 0 0; LeftModules 0;
               CommutativeAdditiveGroups; CommutativeAdditiveMonoids;
               CommutativeAdditiveSemigroups; Sets; Objects;
               RightModules 0 ]).
Proof. vm_compute. reflexivity. Qed.

(** * Facts about element multiplication *)

Section DispatchFacts.
Import CoercionModel Modules.ElementMethods.
Context {Obj S : Type}.
Variable resolver : Obj → Obj → Operator → S → result Obj * S.
Implicit Types (x y left right : Obj) (s : S).

(** Running a single call of the coercion model. *)
Lemma run_bin_op cm x y op s :
  run resolver (bin_op cm x y op) s
  = ((resolver x y op s).1, (resolver x y op s).2, [(x, y, op)]).
Proof.
  unfold bin_op. simpl. by destruct (resolver x y op s) as [[v|e] s'].
Qed.

(** C4.  For every pair of operands, whatever their type, [__mul__] makes
    exactly one call to the coercion model, with the two operands in order
    and the multiplication operation, and hands back the answer of that call
    (and the state the coercion model left) unchanged. *)
Theorem mul_delegates left right s :
  run resolver (__mul__ left right) s
  = ((resolver left right operator_mul s).1,
     (resolver left right operator_mul s).2,
     [(left, right, operator_mul)]).
Proof. unfold __mul__. apply run_bin_op. Qed.

(** C5.  When the coercion model finds no common structure for the two
    operands, [__mul__] fails with that very [NoCommonStructure], after the
    one call that failed: nothing is tried again. *)
Theorem mul_no_common_structure left right s s' :
  resolver left right operator_mul s = (Raise NoCommonStructure, s') →
  run resolver (__mul__ left right) s
  = (Raise NoCommonStructure, s', [(left, right, operator_mul)]).
Proof. intros Hfail. unfold __mul__. rewrite run_bin_op. by rewrite Hfail. Qed.

(** C9.  [x * y] through [x.__mul__(y)] and [y * x] through [x.__rmul__(y)]
    make the same kind of call: the original left operand first, the
    original right operand second, with the multiplication operation.  The
    reflected method does not swap the operands of the expression. *)
Theorem rmul_keeps_operand_order x y s :
  (run resolver (__mul__ x y) s).2 = [(x, y, operator_mul)]
  ∧ (run resolver (__rmul__ x y) s).2 = [(y, x, operator_mul)]
  ∧ run resolver (__rmul__ x y) s = run resolver (__mul__ y x) s.
Proof.
  repeat split.
  - unfold __mul__. by rewrite run_bin_op.
  - unfold __rmul__. by rewrite run_bin_op.
Qed.
End DispatchFacts.

(** A run of C5: 3 and 12 have no common structure for [small_resolver]. *)
Lemma mul_no_common_structure_witness :
  small_resolver 3 12 operator_mul 0 = (Raise NoCommonStructure, 1)
  ∧ CoercionModel.run small_resolver (Modules.ElementMethods.__mul__ 3 12) 0
    = (Raise NoCommonStructure, 1, [(3, 12, operator_mul)]).
Proof.
  split; [reflexivity|].
  apply (mul_no_common_structure small_resolver 3 12 0 1). reflexivity.
Defined.

(** * Facts about cached methods *)

Section CachedFacts.
Import CachedMethod.
Context {K V St : Type} `{Countable K}.
Variable body : K → St → V * St.
Implicit Types (self k : K) (v : V) (w : world K V St) (selves : list K).

Lemma call_hit self v w :
  cache w !! self = Some v → call (total body) self w = (Ok v, w).
Proof. intros Hhit. unfold call. by rewrite Hhit. Qed.

Lemma call_miss self w :
  cache w !! self = None →
  call (total body) self w
  = (Ok (body self (store w)).1,
     {| cache := <[self := (body self (store w)).1]> (cache w);
        invocations := self :: invocations w;
        store := (body self (store w)).2 |}).
Proof.
  intros Hmiss. unfold call, total. rewrite Hmiss.
  by destruct (body self (store w)).
Qed.

(** A call answers with a value, and that value is then in the memo. *)
Lemma call_cached self w :
  ∃ v, (call (total body) self w).1 = Ok v
       ∧ cache (call (total body) self w).2 !! self = Some v.
Proof.
  destruct (cache w !! self) as [v|] eqn:Hc.
  - exists v. by rewrite (call_hit _ _ _ Hc).
  - eexists. rewrite (call_miss _ _ Hc). simpl. split; [done|].
    apply lookup_insert_eq.
Qed.

(** An entry of the memo is never dropped nor overwritten. *)
Lemma call_preserves k v self w :
  cache w !! k = Some v → cache (call (total body) self w).2 !! k = Some v.
Proof.
  intros Hk. destruct (cache w !! self) as [v'|] eqn:Hc.
  - by rewrite (call_hit _ _ _ Hc).
  - rewrite (call_miss _ _ Hc). simpl.
    rewrite lookup_insert_ne; [done|]. intros ->. congruence.
Qed.

Lemma call_all_cons self selves w :
  call_all (total body) (self :: selves) w
  = ((call (total body) self w).1
       :: (call_all (total body) selves (call (total body) self w).2).1,
     (call_all (total body) selves (call (total body) self w).2).2).
Proof.
  simpl. destruct (call (total body) self w) as [r w1]. simpl.
  by destruct (call_all (total body) selves w1).
Qed.

Lemma call_all_preserves k v selves w :
  cache w !! k = Some v →
  cache (call_all (total body) selves w).2 !! k = Some v.
Proof.
  revert w. induction selves as [|self selves IH]; intros w Hk; [done|].
  rewrite call_all_cons. simpl. by apply IH, call_preserves.
Qed.

(** Asking again, after any number of other calls, gives the first answer
    back. *)
Lemma call_again self selves w :
  ∃ v, (call (total body) self w).1 = Ok v
       ∧ (call (total body) self
            (call_all (total body) selves (call (total body) self w).2).2).1
         = Ok v.
Proof.
  destruct (call_cached self w) as (v & Hres & Hc).
  exists v. split; [done|].
  by rewrite (call_hit self v _ (call_all_preserves _ _ selves _ Hc)).
Qed.

Lemma init_logged (st : St) : logged (init st : world K V St).
Proof. split; [apply NoDup_nil_2|]. intros k Hk. by apply elem_of_nil in Hk. Qed.

Lemma call_logged self w : logged w → logged (call (total body) self w).2.
Proof.
  intros [Hnd Hin]. destruct (cache w !! self) as [v|] eqn:Hc.
  - by rewrite (call_hit _ _ _ Hc).
  - rewrite (call_miss _ _ Hc). simpl. split.
    + apply NoDup_cons. split; [|done].
      intros Hself. apply Hin in Hself. rewrite Hc in Hself.
      by destruct Hself.
    + intros k Hk. simpl in *. destruct (decide (self = k)) as [Heq|Hne].
      * rewrite <- Heq, lookup_insert_eq. by eexists.
      * rewrite lookup_insert_ne by done. apply Hin.
        apply elem_of_cons in Hk as [Hk|Hk]; [congruence|done].
Qed.

Lemma call_all_logged selves w :
  logged w → logged (call_all (total body) selves w).2.
Proof.
  revert w. induction selves as [|self selves IH]; intros w Hw; [done|].
  rewrite call_all_cons. simpl. by apply IH, call_logged.
Qed.

Lemma filter_eq_absent k (l : list K) :
  k ∉ l → filter (λ k', k' = k) l = [].
Proof.
  induction l as [|k' l IH]; intros Hnot; [done|].
  apply not_elem_of_cons in Hnot as [Hne Hnot].
  rewrite filter_cons. destruct (decide (k' = k)); [congruence|by apply IH].
Qed.

Lemma NoDup_count k (l : list K) :
  NoDup l → length (filter (λ k', k' = k) l) ≤ 1.
Proof.
  induction 1 as [|k' l Hnot Hnd IH]; [simpl; lia|].
  rewrite filter_cons. destruct (decide (k' = k)) as [->|]; [|done].
  rewrite filter_eq_absent by done. simpl. lia.
Qed.

(** The relation kept in the memo is established by the body and is kept by
    later runs of the body. *)
Variable P : St → K → V → Prop.
Hypothesis body_establishes : ∀ k st, P (body k st).2 k (body k st).1.
Hypothesis body_keeps : ∀ k' st k v, P st k v → P (body k' st).2 k v.

Lemma init_sound (st : St) : sound P (init st : world K V St).
Proof. intros k v Hk. simpl in Hk. by rewrite lookup_empty in Hk. Qed.

Lemma call_sound self w :
  sound P w →
  sound P (call (total body) self w).2
  ∧ ∃ v, (call (total body) self w).1 = Ok v
         ∧ P (store (call (total body) self w).2) self v.
Proof.
  intros Hw. destruct (cache w !! self) as [v|] eqn:Hc.
  - rewrite (call_hit _ _ _ Hc). simpl. split; [done|]. exists v. auto.
  - rewrite (call_miss _ _ Hc). simpl. split; [|eauto].
    intros k v Hk. simpl in *. destruct (decide (self = k)) as [Heq|Hne].
    + rewrite <- Heq, lookup_insert_eq in Hk. injection Hk as <-.
      rewrite <- Heq. apply body_establishes.
    + rewrite lookup_insert_ne in Hk by done. by apply body_keeps, Hw.
Qed.

Lemma call_all_sound selves w :
  sound P w → sound P (call_all (total body) selves w).2.
Proof.
  revert w. induction selves as [|self selves IH]; intros w Hw; [done|].
  rewrite call_all_cons. simpl. by apply IH, call_sound.
Qed.
End CachedFacts.

(** * Further facts about cached methods *)

Section MoreCachedFacts.
Import CachedMethod.
Context {K V St : Type} `{Countable K}.
Variable body : K → St → V * St.
Implicit Types (self k : K) (v : V) (w : world K V St) (selves : list K).

(** When the memo holds exactly the instances the body has run on, it still
    does after a call, and the call adds at most its own instance. *)
Lemma call_invocations self w :
  (∀ k, k ∈ invocations w ↔ is_Some (cache w !! k)) →
  (∀ k, k ∈ invocations (call (total body) self w).2
        ↔ is_Some (cache (call (total body) self w).2 !! k))
  ∧ (∀ k, k ∈ invocations (call (total body) self w).2
          ↔ k = self ∨ k ∈ invocations w).
Proof.
  intros Hw. destruct (cache w !! self) as [v|] eqn:Hc.
  - rewrite (call_hit body _ _ _ Hc). simpl. split; [done|].
    intros k. split; [by right|]. intros [->|Hk]; [|done].
    apply Hw. by rewrite Hc.
  - rewrite (call_miss body _ _ Hc). simpl. split.
    + intros k. rewrite elem_of_cons, Hw.
      destruct (decide (k = self)) as [->|Hne].
      * rewrite lookup_insert_eq. split; [by eexists|by left].
      * rewrite lookup_insert_ne by done. split; [by intros [|]|by right].
    + intros k. by rewrite elem_of_cons.
Qed.

Lemma call_all_invocations selves w :
  (∀ k, k ∈ invocations w ↔ is_Some (cache w !! k)) →
  ∀ k, k ∈ invocations (call_all (total body) selves w).2
       ↔ k ∈ selves ∨ k ∈ invocations w.
Proof.
  revert w. induction selves as [|self selves IH]; intros w Hw k.
  - simpl. rewrite elem_of_nil. tauto.
  - rewrite call_all_cons. simpl.
    destruct (call_invocations self w Hw) as [Hw' Hstep].
    rewrite (IH _ Hw'), Hstep, elem_of_cons. tauto.
Qed.


End MoreCachedFacts.

(** * Facts about the cached super-categories *)

Section ClosureCacheFacts.
Import CachedMethod Hierarchy.
Context {Ring : Type} `{Countable Ring}.
Variable inherited : Category Ring → list (Category Ring).
Implicit Types (node : Category Ring) (nodes : list (Category Ring)).


End ClosureCacheFacts.

(** * Facts about the zero of a space of morphisms *)

Section ZeroFacts.
Import CachedMethod Homsets Modules.HomCategory.ParentMethods.
Context {Parent Element : Type} `{Countable Parent}.
Variable Parent_zero : Parent → Element.
Implicit Types (X : Homset Parent) (h : Heap Parent Element)
  (w : world (Homset Parent) Ref (Heap Parent Element)).

Lemma zero_body_establishes X h :
  is_zero_of Parent_zero (zero_body Parent_zero X h).2 X
    (zero_body Parent_zero X h).1.
Proof.
  unfold zero_body, Homset_call, alloc, is_zero_of. simpl.
  exists {| parent := X; function := λ _, Parent_zero (codomain X) |}.
  split; [|done]. unfold Ref, Heap.
  rewrite lookup_app_r by done. by rewrite Nat.sub_diag.
Qed.

Lemma zero_body_keeps X' h X r :
  is_zero_of Parent_zero h X r →
  is_zero_of Parent_zero (zero_body Parent_zero X' h).2 X r.
Proof.
  intros (m & Hm & Hparent & Hzero). exists m. split; [|done].
  unfold zero_body, Homset_call, alloc. simpl.
  unfold Ref, Heap in *. by apply lookup_app_l_Some.
Qed.

(** C3.  On every space of morphisms, at any time (after any number of
    earlier calls of [zero] on any spaces), [zero] returns a morphism of
    that space which sends every element of the domain to the zero of the
    codomain. *)
Theorem zero_sends_all_to_zero (earlier : list (Homset Parent)) X :
  ∃ r m,
    (zero Parent_zero X
       (call_all (total (zero_body Parent_zero)) earlier (init [])).2).1 = Ok r
    ∧ store (zero Parent_zero X
               (call_all (total (zero_body Parent_zero)) earlier (init [])).2).2
      !! r = Some m
    ∧ parent m = X
    ∧ ∀ x, Morphism_call m x = Parent_zero (codomain X).
Proof.
  unfold zero.
  destruct (call_sound (zero_body Parent_zero) (is_zero_of Parent_zero)
              zero_body_establishes zero_body_keeps X
              (call_all (total (zero_body Parent_zero)) earlier (init [])).2)
    as (_ & r & Hres & m & Hm & Hparent & Hzero).
  - apply call_all_sound;
      [apply zero_body_establishes | apply zero_body_keeps | apply init_sound].
  - by exists r, m.
Qed.

(** Calls of [zero] leave the morphisms that are on the heap where they
    are. *)
Lemma zeros_keep_objects (selves : list (Homset Parent)) w (r : Ref)
    (m : Morphism Parent Element) :
  store w !! r = Some m →
  store (call_all (total (zero_body Parent_zero)) selves w).2 !! r = Some m.
Proof.
  revert w. induction selves as [|X selves IH]; intros w Hr; [done|].
  rewrite call_all_cons. simpl. apply IH.
  destruct (cache w !! X) as [v|] eqn:Hc.
  - by rewrite (call_hit _ _ _ _ Hc).
  - rewrite (call_miss _ _ _ Hc). simpl.
    unfold zero_body, Homset_call, alloc. simpl.
    unfold Ref, Heap in *. by apply lookup_app_l_Some.
Qed.

(** C7.  [zero] is memoized per space of morphisms.  At any time (after any
    number of earlier calls of [zero] on any spaces), a call on a space and
    a later call on the same space, after any number of calls on any spaces
    in between, return the same reference; that reference holds, on the heap
    after the first call and on the heap after the second, one and the same
    object, a morphism of the space that sends every element to the zero of
    the codomain; and the second call builds nothing: it leaves the world as
    it found it. *)
Theorem zero_same_object (earlier between : list (Homset Parent)) X :
  let w := (call_all (total (zero_body Parent_zero)) earlier (init [])).2 in
  let first := zero Parent_zero X w in
  let w' := (call_all (total (zero_body Parent_zero)) between first.2).2 in
  let second := zero Parent_zero X w' in
  ∃ r m,
    first.1 = Ok r
    ∧ second.1 = Ok r
    ∧ store first.2 !! r = Some m
    ∧ store second.2 !! r = Some m
    ∧ parent m = X
    ∧ (∀ x, Morphism_call m x = Parent_zero (codomain X))
    ∧ second.2 = w'.
Proof.
  intros w first w' second. unfold zero in first, second.
  assert (sound (is_zero_of Parent_zero) w) as Hw.
  { apply call_all_sound;
      [apply zero_body_establishes | apply zero_body_keeps | apply init_sound]. }
  destruct (call_sound (zero_body Parent_zero) (is_zero_of Parent_zero)
              zero_body_establishes zero_body_keeps X w Hw)
    as (_ & r & Hres & m & Hm & Hparent & Hzero).
  destruct (call_cached (zero_body Parent_zero) X w) as (r0 & Hres0 & Hc).
  assert (r0 = r) as -> by congruence.
  assert (second = (Ok r, w')) as Hsecond.
  { apply call_hit. by apply call_all_preserves. }
  exists r, m. rewrite Hsecond. simpl.
  repeat split; try done. by apply zeros_keep_objects.
Qed.
End ZeroFacts.

(** * Further facts about the hooks and the declared super-categories *)

Section HookFacts.
Context {Ring : Type} `{EqDecision Ring}.
Variable inherited : Category Ring → list (Category Ring).
Implicit Types (R : Ring) (h : HomCategory Ring) (self c : Category_module Ring).
Import Hierarchy.

(** X1.  Either hook looks at nothing but the base ring of the base
    category: two Hom (or End) nodes get the same contribution exactly when
    their base categories have the same base ring, whatever the classes of
    these base categories. *)
Theorem hooks_depend_on_base_ring_only h h' :
  (Modules.HomCategory.extra_super_categories h
   = Modules.HomCategory.extra_super_categories h'
   ↔ base_ring (base_category h) = base_ring (base_category h'))
  ∧ (Modules.EndCategory.extra_super_categories h
     = Modules.EndCategory.extra_super_categories h'
     ↔ base_ring (base_category h) = base_ring (base_category h')).
Proof.
  unfold Modules.HomCategory.extra_super_categories,
    Modules.EndCategory.extra_super_categories.
  split; (split; [intros [= Heq]; exact Heq | intros ->; reflexivity]).
Qed.

(** X2.  The hook of [EndCategory] replaces the one of [HomCategory] that it
    would inherit, it does not add to it: it never contributes a category of
    modules, its contribution has one element, and it is never the
    contribution of a Hom node. *)
Theorem EndCategory_hook_overrides h h' R :
  (OverRing (Modules R) ∉ Modules.EndCategory.extra_super_categories h)
  ∧ length (Modules.EndCategory.extra_super_categories h) = 1
  ∧ Modules.EndCategory.extra_super_categories h
    ≠ Modules.HomCategory.extra_super_categories h'.
Proof.
  unfold Modules.HomCategory.extra_super_categories,
    Modules.EndCategory.extra_super_categories.
  split; [|split; [reflexivity|discriminate]].
  rewrite elem_of_cons, elem_of_nil. intros [[=]|[]].
Qed.

(** X3.  [Modules.super_categories] never lists a category over a base ring:
    in particular a category of modules is not among its own declared
    super-categories, and neither is any other category of modules or of
    algebras. *)
Theorem super_categories_leaves_the_class self c :
  (OverRing c ∉ Modules.super_categories self)
  ∧ (OverRing self
     ∉ declared_super_categories inherited (Modules (base_ring self))).
Proof.
  unfold declared_super_categories, Modules.super_categories.
  split; rewrite elem_of_cons, elem_of_nil; intros [[=]|[]].
Qed.

(** X4.  What the hook of a Hom node contributes has, for declared
    super-categories, the bimodules over the base ring of the base category
    on both sides: the base ring is carried unchanged from the Hom node
    through [Modules] to [Bimodules]. *)
Theorem HomCategory_hook_then_super_categories h :
  flat_map (declared_super_categories inherited)
    (Modules.HomCategory.extra_super_categories h)
  = [Bimodules (base_ring (base_category h)) (base_ring (base_category h))].
Proof. reflexivity. Qed.
End HookFacts.

(** * Further facts about element multiplication *)

Section MoreDispatchFacts.
Import CoercionModel Modules.ElementMethods.
Context {Obj S : Type}.
Variable resolver : Obj → Obj → Operator → S → result Obj * S.
Implicit Types (x y left right : Obj) (s : S) (e : Exn).

(** X5.  [__mul__] never reorders its operands: [x.__mul__(y)] and
    [y.__mul__(x)] put the same call to the coercion model only when [x] and
    [y] are the same object.  Nothing in the method assumes that the
    multiplication commutes. *)
Theorem mul_operand_order_observable x y s :
  (run resolver (__mul__ x y) s).2 = (run resolver (__mul__ y x) s).2
  ↔ x = y.
Proof.
  unfold __mul__. rewrite !run_bin_op. simpl. split.
  - intros [= Hx Hy]. exact Hx.
  - intros ->. reflexivity.
Qed.

(** X6.  Reflected multiplication hands on any failure of the coercion
    model as it is, after the single call it made with the other operand
    first and the receiver second. *)
Theorem rmul_propagates_failure right left s s' e :
  resolver left right operator_mul s = (Raise e, s') →
  run resolver (__rmul__ right left) s
  = (Raise e, s', [(left, right, operator_mul)]).
Proof.
  intros Hfail. unfold __rmul__. rewrite run_bin_op. by rewrite Hfail.
Qed.
End MoreDispatchFacts.

(** A run of X6: [12.__rmul__(3)] asks for 3 times 12, which
    [small_resolver] refuses. *)
Lemma rmul_propagates_failure_witness :
  small_resolver 3 12 operator_mul 0 = (Raise NoCommonStructure, 1)
  ∧ CoercionModel.run small_resolver (Modules.ElementMethods.__rmul__ 12 3) 0
    = (Raise NoCommonStructure, 1, [(3, 12, operator_mul)]).
Proof.
  split; [reflexivity|].
  apply (rmul_propagates_failure small_resolver 12 3 0 1 NoCommonStructure).
  reflexivity.
Defined.

(** * Further facts about the zero of a space of morphisms *)

Section MoreZeroFacts.
Import CachedMethod Homsets Modules.HomCategory.ParentMethods.
Context {Parent Element : Type} `{Countable Parent}.
Variable Parent_zero : Parent → Element.
Implicit Types (X Y : Homset Parent) (h : Heap Parent Element)
  (w : world (Homset Parent) Ref (Heap Parent Element))
  (selves : list (Homset Parent)).

(** What one call of [zero] does to the heap and to the log of the runs of
    its body. *)
Lemma zero_effect X w :
  store (zero Parent_zero X w).2
  = store w
    ++ match cache w !! X with
       | Some _ => []
       | None =>
           [{| parent := X; function := λ _, Parent_zero (codomain X) |}]
       end
  ∧ invocations (zero Parent_zero X w).2
    = match cache w !! X with Some _ => [] | None => [X] end
      ++ invocations w.
Proof.
  unfold zero. destruct (cache w !! X) as [r|] eqn:Hc.
  - rewrite (call_hit (zero_body Parent_zero) _ _ _ Hc). simpl.
    by rewrite app_nil_r.
  - by rewrite (call_miss (zero_body Parent_zero) _ _ Hc).
Qed.

Lemma zeros_store_length selves w :
  length (store w) = length (invocations w) →
  length (store (call_all (total (zero_body Parent_zero)) selves w).2)
  = length (invocations (call_all (total (zero_body Parent_zero)) selves w).2).
Proof.
  revert w. induction selves as [|X selves IH]; intros w Hw; [done|].
  rewrite call_all_cons. simpl. apply IH.
  destruct (zero_effect X w) as [Hstore Hlog]. unfold zero in Hstore, Hlog.
  rewrite Hstore, Hlog, !length_app, Hw.
  destruct (cache w !! X); simpl; lia.
Qed.

(** X7.  Once [zero] has been called on a space, calling it again on that
    space answers as before and changes nothing: the body is not run and no
    morphism is built. *)
Theorem zero_again_changes_nothing X w :
  zero Parent_zero X (zero Parent_zero X w).2
  = ((zero Parent_zero X w).1, (zero Parent_zero X w).2).
Proof.
  unfold zero.
  destruct (call_cached (zero_body Parent_zero) X w) as (r & Hres & Hc).
  rewrite Hres. by apply call_hit.
Qed.

(** X8.  Calls of [zero] only ever add morphisms to the heap: whatever was
    on the heap stays where it was, and a sequence of calls adds at most one
    object per call. *)
Theorem zero_only_extends_heap selves w :
  store w `prefix_of` store (call_all (total (zero_body Parent_zero)) selves w).2
  ∧ length (store (call_all (total (zero_body Parent_zero)) selves w).2)
    ≤ length (store w) + length selves.
Proof.
  revert w. induction selves as [|X selves IH]; intros w.
  - simpl. split; [done|lia].
  - rewrite call_all_cons. simpl.
    destruct (IH (call (total (zero_body Parent_zero)) X w).2) as [Hpre Hlen].
    destruct (zero_effect X w) as [Hstore _]. unfold zero in Hstore.
    rewrite Hstore in Hpre, Hlen. split.
    + etrans; [|exact Hpre]. by apply prefix_app_r.
    + rewrite length_app in Hlen. destruct (cache w !! X); simpl in *; lia.
Qed.

(** X9.  Starting with nothing cached and an empty heap, a sequence of calls
    of [zero] builds exactly one morphism for each distinct space that it
    asks about, however often a space is asked. *)
Theorem zero_one_object_per_space selves :
  length (store (call_all (total (zero_body Parent_zero)) selves (init [])).2)
  = length (remove_dups selves).
Proof.
  rewrite zeros_store_length by done.
  apply Permutation_length, NoDup_Permutation.
  - by apply call_all_logged, init_logged.
  - apply NoDup_remove_dups.
  - intros X. rewrite elem_of_remove_dups, call_all_invocations.
    + simpl. rewrite elem_of_nil. tauto.
    + intros k. simpl. rewrite elem_of_nil, lookup_empty.
      split; [done|]. by intros [? [=]].
Qed.

(** X10.  Two different spaces of morphisms never share their zero: the
    objects that [zero] returns for them are different objects, whatever
    was called before and in between. *)
Theorem zero_distinct_spaces (earlier between : list (Homset Parent)) X Y :
  X ≠ Y →
  ∃ r r',
    (zero Parent_zero X
       (call_all (total (zero_body Parent_zero)) earlier (init [])).2).1 = Ok r
    ∧ (zero Parent_zero Y
         (call_all (total (zero_body Parent_zero)) between
            (zero Parent_zero X
               (call_all (total (zero_body Parent_zero)) earlier
                  (init [])).2).2).2).1 = Ok r'
    ∧ r ≠ r'.
Proof.
  intros Hne. unfold zero.
  set (w0 := (call_all (total (zero_body Parent_zero)) earlier (init [])).2).
  assert (sound (is_zero_of Parent_zero) w0) as Hw0.
  { apply call_all_sound;
      [apply zero_body_establishes | apply zero_body_keeps | apply init_sound]. }
  destruct (call_cached (zero_body Parent_zero) X w0) as (r & Hres & Hc).
  destruct (call_sound (zero_body Parent_zero) (is_zero_of Parent_zero)
              (zero_body_establishes Parent_zero)
              (zero_body_keeps Parent_zero) X w0 Hw0) as (Hw1 & _).
  set (w1 := (call (total (zero_body Parent_zero)) X w0).2) in *.
  set (w2 := (call_all (total (zero_body Parent_zero)) between w1).2).
  assert (sound (is_zero_of Parent_zero) w2) as Hw2.
  { apply call_all_sound;
      [apply zero_body_establishes | apply zero_body_keeps | done]. }
  destruct (call_sound (zero_body Parent_zero) (is_zero_of Parent_zero)
              (zero_body_establishes Parent_zero)
              (zero_body_keeps Parent_zero) Y w2 Hw2)
    as (Hw3 & r' & Hres' & m' & Hm' & Hparent' & _).
  exists r, r'. split; [done|]. split; [done|]. intros ->.
  destruct (Hw3 X r') as (m & Hm & Hparent & _).
  { apply call_preserves. by apply call_all_preserves. }
  congruence.
Qed.
End MoreZeroFacts.

(** A run of X10 over modules named by numbers: the zero of [Hom(1, 2)] and
    the zero of [Hom(2, 3)]. *)
Lemma zero_distinct_spaces_witness :
  Homsets.Hom 1 2 ≠ Homsets.Hom 2 3
  ∧ ∃ r r',
      (Modules.HomCategory.ParentMethods.zero (λ _ : nat, 0) (Homsets.Hom 1 2)
         (CachedMethod.call_all
            (CachedMethod.total
               (Modules.HomCategory.ParentMethods.zero_body (λ _ : nat, 0)))
            [] (CachedMethod.init [])).2).1 = Ok r
      ∧ (Modules.HomCategory.ParentMethods.zero (λ _ : nat, 0) (Homsets.Hom 2 3)
           (CachedMethod.call_all
              (CachedMethod.total
                 (Modules.HomCategory.ParentMethods.zero_body (λ _ : nat, 0)))
              []
              (Modules.HomCategory.ParentMethods.zero (λ _ : nat, 0)
                 (Homsets.Hom 1 2)
                 (CachedMethod.call_all
                    (CachedMethod.total
                       (Modules.HomCategory.ParentMethods.zero_body
                          (λ _ : nat, 0)))
                    [] (CachedMethod.init [])).2).2).2).1 = Ok r'
      ∧ r ≠ r'.
Proof.
  split; [discriminate|].
  apply (zero_distinct_spaces (λ _ : nat, 0) [] [] (Homsets.Hom 1 2)
           (Homsets.Hom 2 3)).
  discriminate.
Defined.
